(** * The vocabulary game's request handlers (src/vocab/flask_vocab.py)

    A shallow embedding of the Flask handlers [index], [check] and
    [check_word] together with the module-level set-up they depend on.

    The handlers read and write the per-player [flask.session] and may
    raise; they are written in a small state-and-exception monad over the
    session.  The collaborators imported from other modules ([Vocab],
    [LetterBag], [jumbled]) are not part of this file of the program: the
    handlers are parameterised by them, and a concrete instance following
    the design document is given for running examples. *)

From Stdlib Require Import String Ascii List ZArith Bool Lia.
Import ListNotations.

Open Scope string_scope.
Open Scope list_scope.
Open Scope Z_scope.

(** ** Python values used by the handlers *)

(** The text submitted by the player.  [request.args.get("text")] is a
    [str], or [None] when the query has no such parameter. *)
Definition candidate : Type := option string.

Definition candidate_eqb (a b : candidate) : bool :=
  match a, b with
  | Some x, Some y => String.eqb x y
  | None, None => true
  | _, _ => false
  end.

(** [text in matches] *)
Definition py_in (text : candidate) (matches : list candidate) : bool :=
  existsb (candidate_eqb text) matches.

(** ["{}".format(text)] *)
Definition format (text : candidate) : string :=
  match text with
  | Some w => w
  | None => "None"
  end.

Definition dquote : string := String "034"%char EmptyString.

(** [len(matches)] *)
Definition len {A : Type} (l : list A) : Z := Z.of_nat (length l).

(** ** Exceptions *)

(** An exception is kept as its class name and the text [str(e)] gives. *)
Inductive exn : Type :=
| Exn (cls : string) (msg : string).

Definition exn_class (e : exn) : string := let (c, _) := e in c.
Definition str (e : exn) : string := let (_, m) := e in m.

(** [d[key]] on a missing key; [str] of a [KeyError] is the [repr] of the
    key. *)
Definition KeyError (key : string) : exn :=
  Exn "KeyError" ("'" ++ key ++ "'")%string.

(** [assert False] *)
Definition AssertionError : exn := Exn "AssertionError" "".

(** [request.form[key]] on a missing key. *)
Definition BadRequestKeyError : exn :=
  Exn "BadRequestKeyError"
      "400 Bad Request: The browser (or proxy) sent a request that this server could not understand.".

(** A call that either raises or returns. *)
Definition throws (A : Type) : Type := (exn + A)%type.

(** ** Session state *)

(** [flask.session] as the handler of one request sees it: a dictionary
    in which the handlers use three keys.  A key that was never set is
    [None] here; reading it with [session[key]] raises [KeyError].
    How the serving layer carries the dictionary from one request to the
    next is not part of this module. *)
Record Session : Type := mkSession {
  jumble : option string;
  target_count : option Z;
  matches : option (list candidate)
}.

Definition empty_session : Session := mkSession None None None.

Definition set_jumble (v : string) (s : Session) : Session :=
  mkSession (Some v) (target_count s) (matches s).
Definition set_target_count (v : Z) (s : Session) : Session :=
  mkSession (jumble s) (Some v) (matches s).
Definition set_matches (v : list candidate) (s : Session) : Session :=
  mkSession (jumble s) (target_count s) (Some v).

(** ** Handler monad: session passing with exceptions

    A raised exception leaves the session as it is at the point of the
    raise: writes made before it are kept. *)
Definition M (A : Type) : Type := Session -> Session * throws A.

Definition ret {A : Type} (a : A) : M A := fun s => (s, inr a).

Definition raise {A : Type} (e : exn) : M A := fun s => (s, inl e).

Definition bind {A B : Type} (c : M A) (k : A -> M B) : M B :=
  fun s =>
    match c s with
    | (s', inr a) => k a s'
    | (s', inl e) => (s', inl e)
    end.

(** A call into another module: it does not touch the session. *)
Definition call {A : Type} (r : throws A) : M A := fun s => (s, r).

Declare Scope handler_scope.
Delimit Scope handler_scope with handler.
Notation "x <- c ;; k" := (bind c (fun x => k))
  (at level 100, c at next level, right associativity) : handler_scope.
Notation "' pat <- c ;; k" := (bind c (fun x => match x with pat => k end))
  (at level 100, pat pattern, c at next level, right associativity) : handler_scope.
Notation "c ;;; k" := (bind c (fun _ => k))
  (at level 100, right associativity) : handler_scope.
Open Scope handler_scope.

(** [flask.session["jumble"]] *)
Definition session_jumble : M string :=
  fun s => (s, match jumble s with
               | Some j => inr j
               | None => inl (KeyError "jumble")
               end).

(** [flask.session["target_count"]] *)
Definition session_target_count : M Z :=
  fun s => (s, match target_count s with
               | Some n => inr n
               | None => inl (KeyError "target_count")
               end).

(** [flask.session["matches"]] *)
Definition session_matches : M (list candidate) :=
  fun s => (s, match matches s with
               | Some ms => inr ms
               | None => inl (KeyError "matches")
               end).

(** [flask.session.get("matches", [])]: the session's own list when the
    key is set, a new empty list otherwise. *)
Definition session_get_matches : M (list candidate) :=
  fun s => (s, inr (match matches s with
                    | Some ms => ms
                    | None => []
                    end)).

(** [matches.append(text)] for the list [ms] obtained by
    [session_get_matches].  When the key is set that list is the object
    stored in the session, so the append is visible there; the default
    list is not stored anywhere.  Returns the list after the append. *)
Definition matches_append (ms : list candidate) (text : candidate)
  : M (list candidate) :=
  fun s =>
    let ms' := ms ++ [text] in
    (match matches s with
     | Some _ => set_matches ms' s
     | None => s
     end, inr ms').

(** [flask.session["target_count"] = v] and the like. *)
Definition session_set_target_count (v : Z) : M unit :=
  fun s => (set_target_count v s, inr tt).
Definition session_set_jumble (v : string) : M unit :=
  fun s => (set_jumble v s, inr tt).
Definition session_set_matches (v : list candidate) : M unit :=
  fun s => (set_matches v s, inr tt).

(** ** Collaborators and module globals *)

(** The shared [Vocab] object: the two methods the handlers call. *)
Record Vocab : Type := mkVocab {
  as_list : list string;
  has : candidate -> throws bool
}.

(** The attributes of [CONFIG] this module reads, apart from the two
    ([VOCAB], [SEED]) that are consumed while the module is loaded. *)
Record Config : Type := mkConfig {
  SECRET_KEY : string;
  SUCCESS_AT_COUNT : Z;
  PORT : Z;
  DEBUG : bool
}.

Record Globals : Type := mkGlobals {
  CONFIG : Config;
  WORDS : Vocab;
  SEED : option Z
}.

(** Lines 24-39, run once when the module is loaded.  [vocab] is what
    [Vocab(CONFIG.VOCAB)] does and [int_SEED] what [int(CONFIG.SEED)]
    does; only a [ValueError] of the latter is caught. *)
Definition module_init (cfg : Config) (vocab : throws Vocab)
    (int_SEED : throws Z) : throws Globals :=
  match vocab with
  | inl e => inl e
  | inr words =>
      match int_SEED with
      | inr z => inr (mkGlobals cfg words (Some z))
      | inl e =>
          if String.eqb (exn_class e) "ValueError"
          then inr (mkGlobals cfg words None)
          else inl e
      end
  end.

(** ** Responses *)

(** [flask.render_template(name)] *)
Inductive Page : Type :=
| Template (name : string).

(** The dictionary [result] built by [check]; a key that was not set is
    [None]. *)
Record CheckResult : Type := mkCheckResult {
  res_matches : option (list candidate);
  res_message : option string;
  res_redirect : option string
}.

Definition empty_result : CheckResult := mkCheckResult None None None.

Definition with_matches (v : list candidate) (r : CheckResult) : CheckResult :=
  mkCheckResult (Some v) (res_message r) (res_redirect r).
Definition with_message (v : string) (r : CheckResult) : CheckResult :=
  mkCheckResult (res_matches r) (Some v) (res_redirect r).
Definition with_redirect (v : string) (r : CheckResult) : CheckResult :=
  mkCheckResult (res_matches r) (res_message r) (Some v).

(** What [check] hands to [flask.jsonify]. *)
Inductive CheckJson : Type :=
| JsonResult (r : CheckResult)
| JsonError (error : string).

(** The dictionary [response] built by [check_word]. *)
Record WordResponse : Type := mkWordResponse {
  valid_word : bool;
  already_found : bool;
  redirect_url : option string
}.

(** [flask.url_for] of the two routes declared at lines 63 and 73. *)
Definition url_success : string := "/success".
Definition url_keep_going : string := "/keep_going".

(** ** Classification of a submitted word *)

Inductive Outcome : Type :=
| ACCEPTED
| DUPLICATE
| NOT_A_WORD
| NOT_FROM_JUMBLE.

(** Lines 106-118: the branch of the [if]/[elif] chain that runs, from
    the truth values of [matched], [in_jumble] and [text in matches].
    [None] is the final [else], which asserts. *)
Definition respond (matched in_jumble found : bool) : option Outcome :=
  if matched && in_jumble && negb found then Some ACCEPTED
  else if found then Some DUPLICATE
  else if negb matched then Some NOT_A_WORD
  else if negb in_jumble then Some NOT_FROM_JUMBLE
  else None.

(** The precedence table of the design (section 4.4, step 3), in its
    order: already matched, not a vocabulary word, not from the jumble,
    and accepted when all three tests pass. *)
Definition precedence (matched in_jumble found : bool) : Outcome :=
  if found then DUPLICATE
  else if negb matched then NOT_A_WORD
  else if negb in_jumble then NOT_FROM_JUMBLE
  else ACCEPTED.

(** The list bound to [matches] once the chain has run: [text] is
    appended on the first branch only. *)
Definition found_after (text : candidate) (found : list candidate)
    (matched in_jumble : bool) : list candidate :=
  if matched && in_jumble && negb (py_in text found)
  then found ++ [text] else found.

(** Line 54: [None if not SEED or SEED < 0 else SEED].  [not SEED] holds
    for [None] and for [0]. *)
Definition seed_arg (seed : option Z) : option Z :=
  match seed with
  | None => None
  | Some z => if (z =? 0) || (z <? 0) then None else Some z
  end.

(** ** The handlers *)

Section Handlers.

(** [LetterBag(jumble).contains(text)] *)
Variable LetterBag_contains : string -> candidate -> throws bool.

(** [jumbled(word_list, n, seed=...)].  The last argument stands for
    the state of Python's global random generator at the call, which
    an unseeded call draws from. *)
Variable jumbled : list string -> Z -> option Z -> Z -> throws string.

Variable G : Globals.

(** Line 51: [min(len(flask.g.vocab), CONFIG.SUCCESS_AT_COUNT)] *)
Definition index_target : Z :=
  Z.min (len (as_list (WORDS G))) (SUCCESS_AT_COUNT (CONFIG G)).

(** Lines 48-60.  [entropy] is the random state at this request. *)
Definition index (entropy : Z) : M Page :=
  let vocab := as_list (WORDS G) in
  session_set_target_count index_target ;;;
  target <- session_target_count ;;
  letters <- call (jumbled vocab target (seed_arg (SEED G)) entropy) ;;
  session_set_jumble letters ;;;
  session_set_matches [] ;;;
  found <- session_matches ;;
  match found with
  | _ :: _ => raise AssertionError
  | [] =>
      target <- session_target_count ;;
      if 0 <? target
      then ret (Template "vocab.html")
      else raise AssertionError
  end.

(** Lines 64-70. *)
Definition keep_going : M Page := ret (Template "vocab.html").

(** Lines 74-75. *)
Definition success : M Page := ret (Template "success.html").

(** Lines 106-118, given the values computed at lines 99-104.  Returns
    [result] and the list bound to [matches]. *)
Definition check_respond (text : candidate) (letters : string)
    (found : list candidate) (matched in_jumble : bool)
  : M (CheckResult * list candidate) :=
  match respond matched in_jumble (py_in text found) with
  | Some ACCEPTED =>
      found' <- matches_append found text ;;
      ret (with_matches found' empty_result, found')
  | Some DUPLICATE =>
      ret (with_message ("You already found " ++ format text)%string
             empty_result, found)
  | Some NOT_A_WORD =>
      ret (with_message (format text ++ " isn't in the list of words")%string
             empty_result, found)
  | Some NOT_FROM_JUMBLE =>
      ret (with_message
             (dquote ++ format text ++ dquote
              ++ " can't be made from the letters " ++ letters)%string
             empty_result, found)
  | None => raise AssertionError
  end.

(** The [result] dictionary each branch of lines 106-118 leaves. *)
Definition result_for (o : Outcome) (text : candidate) (letters : string)
    (found : list candidate) : CheckResult :=
  match o with
  | ACCEPTED => with_matches found empty_result
  | DUPLICATE =>
      with_message ("You already found " ++ format text)%string empty_result
  | NOT_A_WORD =>
      with_message (format text ++ " isn't in the list of words")%string
        empty_result
  | NOT_FROM_JUMBLE =>
      with_message
        (dquote ++ format text ++ dquote
         ++ " can't be made from the letters " ++ letters)%string
        empty_result
  end.

(** Lines 121-124: solved enough, or keep going? *)
Definition choose_page (found : list candidate) (target : Z)
    (result : CheckResult) : CheckResult :=
  if len found >=? target
  then with_redirect url_success result
  else with_redirect url_keep_going result.

(** Lines 97-124: [result] as it stands before it is logged, with the
    list bound to [matches]. *)
Definition check_body (text : candidate)
  : M (CheckResult * list candidate) :=
  letters <- session_jumble ;;
  found <- session_get_matches ;;
  in_jumble <- call (LetterBag_contains letters text) ;;
  matched <- call (has (WORDS G) text) ;;
  ' (result, found) <- check_respond text letters found matched in_jumble ;;
  target <- session_target_count ;;
  ret (choose_page found target result, found).

(** Lines 126-127: the two debug lines read [result["redirect"]] and
    [result["matches"]]. *)
Definition check_log (result : CheckResult) : M unit :=
  match res_redirect result with
  | None => raise (KeyError "redirect")
  | Some _ =>
      match res_matches result with
      | None => raise (KeyError "matches")
      | Some _ => ret tt
      end
  end.

(** Lines 85-131, for [text = request.args.get("text")]: the body runs
    under [try], and any exception becomes the [error] reply. *)
Definition check (text : candidate) (s : Session) : Session * CheckJson :=
  match (' (result, found) <- check_body text ;;
         check_log result ;;;
         ret result) s with
  | (s', inr result) => (s', JsonResult result)
  | (s', inl e) => (s', JsonError (str e))
  end.

(** Lines 147-173.  [attempt] is the form field of that name, [None]
    when the form has none; the list bound to [matches] is returned
    with the response. *)
Definition check_word (attempt : option string)
  : M (WordResponse * list candidate) :=
  match attempt with
  | None => raise BadRequestKeyError
  | Some w =>
      let text : candidate := Some w in
      letters <- session_jumble ;;
      found <- session_get_matches ;;
      in_jumble <- call (LetterBag_contains letters text) ;;
      matched <- call (has (WORDS G) text) ;;
      let response :=
        mkWordResponse (matched && in_jumble) (py_in text found) None in
      found <- (if valid_word response && negb (already_found response)
                then found' <- matches_append found text ;;
                     session_set_matches found' ;;;
                     ret found'
                else ret found) ;;
      target <- session_target_count ;;
      ret (if len found >=? target
           then mkWordResponse (valid_word response)
                  (already_found response) (Some url_success)
           else response,
           found)
  end.

End Handlers.

(** ** Session invariants of a computation *)

(** [c] writes neither [jumble] nor [target_count], whether it returns
    or raises. *)
Definition keeps_game {A : Type} (c : M A) : Prop :=
  forall s, jumble (fst (c s)) = jumble s
            /\ target_count (fst (c s)) = target_count s.

(** [c] leaves the whole session as it found it. *)
Definition read_only {A : Type} (c : M A) : Prop :=
  forall s, fst (c s) = s.

(** ** A concrete instance of the collaborators

    [src/letterbag.py], [src/vocab.py] and [src/jumble.py] are imported by
    the handlers' module but are not part of it.  The definitions below
    follow the contracts of the design document and are used to run the
    handlers on concrete requests. *)

Definition lower_ascii (c : ascii) : ascii :=
  let n := nat_of_ascii c in
  if (Nat.leb 65 n && Nat.leb n 90)%bool then ascii_of_nat (n + 32) else c.

Fixpoint lower (w : string) : string :=
  match w with
  | EmptyString => EmptyString
  | String c w' => String (lower_ascii c) (lower w')
  end.

Fixpoint count_letter (c : ascii) (w : string) : nat :=
  match w with
  | EmptyString => O
  | String d w' =>
      if Ascii.eqb c d then S (count_letter c w') else count_letter c w'
  end.

(** Modelled from the spec: [LetterBag] (src/letterbag.py) is missing.
    Section 3: a candidate is contained iff for every character in the
    candidate its count in the candidate does not exceed its count in the
    jumble, with case normalised to lowercase before comparison; the
    empty candidate is contained.  The contract covers strings only:
    for [None] the normalisation step is what raises in Python. *)
Definition spec_contains (letters : string) (text : candidate)
  : throws bool :=
  match text with
  | None =>
      inl (Exn "AttributeError" "'NoneType' object has no attribute 'lower'")
  | Some w =>
      let w' := lower w in
      let bag := lower letters in
      inr (forallb
             (fun c => Nat.leb (count_letter c w') (count_letter c bag))
             (list_ascii_of_string w'))
  end.

(** Modelled from the spec: [Vocab] (src/vocab.py) is missing.
    Section 4.1: words are normalised to lowercase on load, [has] is a
    case-insensitive exact membership test that normalises the query the
    same way, and [as_list] returns the words in load order. *)
Definition spec_vocab (words : list string) : Vocab :=
  let loaded := map lower words in
  mkVocab loaded
    (fun text =>
       match text with
       | None =>
           inl (Exn "AttributeError"
                    "'NoneType' object has no attribute 'lower'")
       | Some w => inr (existsb (String.eqb (lower w)) loaded)
       end).

Fixpoint rotate {A : Type} (n : nat) (l : list A) : list A :=
  match n, l with
  | S n', x :: l' => rotate n' (l' ++ [x])
  | _, _ => l
  end.

(** Modelled from the spec: [jumbled] (src/jumble.py) is missing.
    Section 4.3: an empty vocabulary is a ConfigurationError; otherwise
    the letters of chosen words are concatenated and permuted, the
    permutation being a function of the seed when one is given and of
    the ambient randomness otherwise.  The policy here takes the first
    [n] words and rotates their letters. *)
Definition spec_jumbled (word_list : list string) (n : Z) (seed : option Z)
    (entropy : Z) : throws string :=
  let r := match seed with Some z => z | None => entropy end in
  match word_list with
  | [] => inl (Exn "ConfigurationError" "the vocabulary is empty")
  | _ :: _ =>
      let letters :=
        concat (map list_ascii_of_string (firstn (Z.to_nat n) word_list)) in
      inr (string_of_list_ascii
             (rotate (Z.to_nat (r mod Z.max 1 (len letters))) letters))
  end.

(** A generator that returns for every vocabulary, as one built on
    sampling [n] words and shuffling their letters does: for an empty
    vocabulary [n] is [0] and the jumble is the empty string. *)
Definition sampling_jumbled (word_list : list string) (n : Z)
    (seed : option Z) (entropy : Z) : throws string :=
  match word_list with
  | [] => inr EmptyString
  | _ :: _ => spec_jumbled word_list n seed entropy
  end.

(** The scenario of section 8: vocabulary cat, car, cart; success at two
    words; seed 1. *)
Definition demo_config : Config := mkConfig "secret" 2 5000 true.

Definition demo_globals : Globals :=
  mkGlobals demo_config (spec_vocab ["cat"; "car"; "cart"]) (Some 1).

Definition demo_session (found : list candidate) : Session :=
  mkSession (Some "tac") (Some 2) (Some found).


(** The same application with nothing in its vocabulary. *)
Definition empty_globals : Globals :=
  mkGlobals demo_config (spec_vocab []) (Some 1).

(** ** Successive requests to [check_word] *)

(** The list [flask.session.get("matches", [])] evaluates to. *)
Definition current_matches (s : Session) : list candidate :=
  match matches s with
  | Some ms => ms
  | None => []
  end.

Section Play.

Variable LetterBag_contains : string -> candidate -> throws bool.
Variable G : Globals.

(** The session a POST to /_check/word leaves.  Whenever [check_word]
    appends it also assigns [flask.session["matches"]] (line 167), so
    what it leaves is a session written through the session's own
    interface. *)
Definition word_request (attempt : option string) (s : Session) : Session :=
  fst (check_word LetterBag_contains G attempt s).

(** Requests to /_check/word served one after another, each on the
    session the one before left. *)
Definition play_words (attempts : list (option string)) (s : Session)
  : Session :=
  fold_left (fun s0 attempt => word_request attempt s0) attempts s.

End Play.

(** * Properties *)

(** ** Membership and classification *)

Lemma candidate_eqb_eq (a b : candidate) :
  candidate_eqb a b = true <-> a = b.
Proof.
  destruct a as [x|], b as [y|]; simpl; try (split; congruence).
  rewrite String.eqb_eq. split; congruence.
Qed.

Lemma py_in_In (text : candidate) (found : list candidate) :
  py_in text found = true <-> In text found.
Proof.
  unfold py_in. rewrite existsb_exists. split.
  - intros [x [Hin Heq]]. apply candidate_eqb_eq in Heq. now subst.
  - intros Hin. exists text. split; [assumption|]. now apply candidate_eqb_eq.
Qed.

Lemma py_in_not_In (text : candidate) (found : list candidate) :
  py_in text found = false <-> ~ In text found.
Proof.
  rewrite <- py_in_In. destruct (py_in text found); split; congruence.
Qed.

Lemma respond_table (matched in_jumble found : bool) :
  respond matched in_jumble found = Some (precedence matched in_jumble found).
Proof. now destruct matched, in_jumble, found. Qed.

Lemma precedence_accepted (matched in_jumble found : bool) :
  precedence matched in_jumble found = ACCEPTED <->
  matched && in_jumble && negb found = true.
Proof.
  unfold precedence. destruct matched, in_jumble, found; simpl;
    split; congruence.
Qed.

Lemma respond_accepted (matched in_jumble found : bool) :
  respond matched in_jumble found = Some ACCEPTED <->
  matched && in_jumble && negb found = true.
Proof.
  unfold respond. destruct matched, in_jumble, found; simpl; split; congruence.
Qed.

Lemma len_app_one {A : Type} (l : list A) (x : A) : len (l ++ [x]) = len l + 1.
Proof. unfold len. rewrite length_app. simpl. lia. Qed.

Lemma set_matches_same (s : Session) (found : list candidate) :
  matches s = Some found -> set_matches found s = s.
Proof. destruct s as [j t m]. simpl. intros ->. reflexivity. Qed.

(** ** Running the handlers on an initialised session *)

Ltac run_handler :=
  unfold bind, call, ret, raise, session_jumble, session_get_matches,
    session_target_count, session_matches, session_set_matches,
    session_set_jumble, session_set_target_count, matches_append; simpl.

Section Runs.

Variable contains : string -> candidate -> throws bool.
Variable G : Globals.
Variables (text : candidate) (s : Session).
Variables (letters : string) (found : list candidate) (target : Z).
Variables (matched in_jumble : bool).

Hypothesis Hjumble : jumble s = Some letters.
Hypothesis Hmatches : matches s = Some found.
Hypothesis Htarget : target_count s = Some target.
Hypothesis Hcontains : contains letters text = inr in_jumble.
Hypothesis Hhas : has (WORDS G) text = inr matched.

Lemma check_respond_run :
  check_respond text letters found matched in_jumble s =
  (set_matches (found_after text found matched in_jumble) s,
   inr (result_for (precedence matched in_jumble (py_in text found))
          text letters (found_after text found matched in_jumble),
        found_after text found matched in_jumble)).
Proof.
  unfold check_respond, found_after, respond, precedence.
  destruct matched, in_jumble, (py_in text found); simpl;
    run_handler; rewrite ?Hmatches; simpl;
    rewrite ?(set_matches_same _ _ Hmatches); reflexivity.
Qed.

(** [check_body] returns: the session holds the list bound to
    [matches], and [result] carries the page chosen for that list. *)
Lemma check_body_run :
  check_body contains G text s =
  (set_matches (found_after text found matched in_jumble) s,
   inr (choose_page (found_after text found matched in_jumble) target
          (result_for (precedence matched in_jumble (py_in text found))
             text letters (found_after text found matched in_jumble)),
        found_after text found matched in_jumble)).
Proof.
  unfold check_body.
  unfold bind at 1. unfold session_jumble. rewrite Hjumble.
  unfold bind at 1. unfold session_get_matches. rewrite Hmatches.
  unfold bind at 1. unfold call at 1. rewrite Hcontains.
  unfold bind at 1. unfold call at 1. rewrite Hhas.
  unfold bind at 1. rewrite check_respond_run.
  unfold bind, session_target_count, ret. simpl. rewrite Htarget.
  reflexivity.
Qed.

(** What [check] replies: the dictionary when the word was accepted, and
    otherwise the text of the [KeyError] raised at line 127. *)
Lemma check_run :
  check contains G text s =
  (set_matches (found_after text found matched in_jumble) s,
   match precedence matched in_jumble (py_in text found) with
   | ACCEPTED =>
       JsonResult
         (choose_page (found_after text found matched in_jumble) target
            (with_matches (found_after text found matched in_jumble)
               empty_result))
   | _ => JsonError "'matches'"
   end).
Proof.
  unfold check. unfold bind at 1. rewrite check_body_run.
  unfold choose_page.
  destruct (precedence matched in_jumble (py_in text found));
    destruct (len (found_after text found matched in_jumble) >=? target);
    reflexivity.
Qed.

(** [check_word] returns, with the same session and list. *)
Lemma check_word_run (w : string) :
  text = Some w ->
  check_word contains G (Some w) s =
    (set_matches (found_after text found matched in_jumble) s,
     inr (mkWordResponse (matched && in_jumble) (py_in text found)
            (if len (found_after text found matched in_jumble) >=? target
             then Some url_success else None),
          found_after text found matched in_jumble)).
Proof.
  intros Htext. unfold check_word. rewrite <- Htext.
  unfold bind at 1. unfold session_jumble. rewrite Hjumble.
  unfold bind at 1. unfold session_get_matches. rewrite Hmatches.
  unfold bind at 1. unfold call at 1. rewrite Hcontains.
  unfold bind at 1. unfold call at 1. rewrite Hhas.
  unfold found_after. simpl.
  destruct (matched && in_jumble && negb (py_in text found)) eqn:Hacc.
  - run_handler. rewrite Hmatches. simpl. rewrite Htarget.
    destruct (len (found ++ [text]) >=? target); reflexivity.
  - run_handler. rewrite Htarget, (set_matches_same _ _ Hmatches).
    destruct (len found >=? target); reflexivity.
Qed.

End Runs.

(** ** What the word handlers may write *)

Lemma read_only_keeps {A : Type} (c : M A) : read_only c -> keeps_game c.
Proof. intros H s. now rewrite H. Qed.

Lemma read_only_ret {A : Type} (a : A) : read_only (ret a).
Proof. now intros s. Qed.

Lemma read_only_raise {A : Type} (e : exn) : read_only (@raise A e).
Proof. now intros s. Qed.

Lemma read_only_call {A : Type} (r : throws A) : read_only (call r).
Proof. now intros s. Qed.

Lemma read_only_session_jumble : read_only session_jumble.
Proof. now intros s. Qed.

Lemma read_only_session_target_count : read_only session_target_count.
Proof. now intros s. Qed.

Lemma read_only_session_get_matches : read_only session_get_matches.
Proof. now intros s. Qed.

Lemma keeps_matches_append (ms : list candidate) (text : candidate) :
  keeps_game (matches_append ms text).
Proof. intros s. unfold matches_append. simpl. now destruct (matches s). Qed.

Lemma keeps_session_set_matches (ms : list candidate) :
  keeps_game (session_set_matches ms).
Proof. now intros s. Qed.

Lemma keeps_bind {A B : Type} (c : M A) (k : A -> M B) :
  keeps_game c -> (forall a, keeps_game (k a)) -> keeps_game (bind c k).
Proof.
  intros Hc Hk s. unfold bind.
  destruct (Hc s) as [Hj Ht]. destruct (c s) as [s' [e|a]]; simpl in *.
  - now split.
  - destruct (Hk a s') as [Hj' Ht']. split; congruence.
Qed.

Create HintDb frame.
#[local] Hint Resolve read_only_keeps read_only_ret read_only_raise
  read_only_call read_only_session_jumble read_only_session_target_count
  read_only_session_get_matches keeps_matches_append
  keeps_session_set_matches : frame.

Ltac frame_step :=
  first [ apply keeps_bind; [ | intros ? ] | solve [ auto with frame ] ].

Lemma keeps_check_respond (text : candidate) (letters : string)
    (found : list candidate) (matched in_jumble : bool) :
  keeps_game (check_respond text letters found matched in_jumble).
Proof.
  unfold check_respond.
  destruct (respond matched in_jumble (py_in text found)) as [[| | |]|];
    repeat frame_step.
Qed.

Lemma keeps_check_body contains G (text : candidate) :
  keeps_game (check_body contains G text).
Proof.
  unfold check_body.
  apply keeps_bind; [auto with frame | intros letters].
  apply keeps_bind; [auto with frame | intros found].
  apply keeps_bind; [auto with frame | intros in_jumble].
  apply keeps_bind; [auto with frame | intros matched].
  apply keeps_bind; [apply keeps_check_respond | intros [result found']].
  repeat frame_step.
Qed.

Lemma keeps_check_word contains G (attempt : option string) :
  keeps_game (check_word contains G attempt).
Proof.
  unfold check_word. destruct attempt as [w|]; [|auto with frame].
  repeat frame_step.
  destruct (valid_word _ && negb (already_found _)); repeat frame_step.
Qed.

Lemma check_session contains G (text : candidate) (s : Session) :
  fst (check contains G text s) = fst (check_body contains G text s).
Proof.
  unfold check, bind.
  destruct (check_body contains G text s) as [s' [e|[r ms]]]; simpl;
    [reflexivity|].
  unfold check_log.
  destruct (res_redirect r); [destruct (res_matches r)|]; reflexivity.
Qed.

(** ** Starting a session *)

Lemma index_run jumbled G (entropy : Z) (s : Session) (letters : string) :
  jumbled (as_list (WORDS G)) (index_target G) (seed_arg (SEED G)) entropy
    = inr letters ->
  index jumbled G entropy s =
  (mkSession (Some letters) (Some (index_target G)) (Some []),
   if 0 <? index_target G then inr (Template "vocab.html")
   else inl AssertionError).
Proof.
  intros Hgen. unfold index. run_handler. rewrite Hgen. simpl.
  destruct (0 <? index_target G); reflexivity.
Qed.

Lemma index_raises jumbled G (entropy : Z) (s : Session) (e : exn) :
  jumbled (as_list (WORDS G)) (index_target G) (seed_arg (SEED G)) entropy
    = inl e ->
  index jumbled G entropy s = (set_target_count (index_target G) s, inl e).
Proof.
  intros Hgen. unfold index. run_handler. rewrite Hgen. reflexivity.
Qed.


Lemma seed_arg_none (seed : option Z) :
  seed_arg seed = None <-> seed = None \/ exists z, seed = Some z /\ z <= 0.
Proof.
  unfold seed_arg. destruct seed as [y|].
  - destruct (Z.eqb_spec y 0) as [Hz|Hz], (Z.ltb_spec y 0) as [Hn|Hn];
      simpl; split.
    all: try reflexivity.
    all: try discriminate.
    all: try (intros _; right; exists y; split; [reflexivity|lia]).
    intros [H|[z [Heq Hle]]]; [discriminate|].
    injection Heq as Heq. subst. lia.
  - split; [now left|reflexivity].
Qed.

(** ** Replies to a word that is not accepted *)

(** C1.  On an initialised session, a candidate that is not accepted
    (already found, not a vocabulary word, or not spellable from the
    jumble) leaves the session, and so [matches] and [target_count],
    unchanged under both handlers, and [check] does build the message
    for the case; but what [check] replies is not that message: line 127
    reads [result["matches"]], which only the accepting branch sets, and
    the reply is the text of the resulting [KeyError]. *)
Theorem check_rejected_reply contains G (text : candidate) (s : Session)
    (letters : string) (found : list candidate) (target : Z)
    (matched in_jumble : bool) :
  jumble s = Some letters ->
  matches s = Some found ->
  target_count s = Some target ->
  contains letters text = inr in_jumble ->
  has (WORDS G) text = inr matched ->
  precedence matched in_jumble (py_in text found) <> ACCEPTED ->
  (exists message,
      check_body contains G text s =
      (s, inr (choose_page found target (with_message message empty_result),
               found)))
  /\ check contains G text s = (s, JsonError "'matches'")
  /\ (forall w, text = Some w ->
        fst (check_word contains G (Some w) s) = s)
  /\ (forall n : nat,
        Nat.iter n (fun s0 => fst (check contains G text s0)) s = s).
Proof.
  intros Hj Hm Ht Hc Hh Hrej.
  assert (Hsame : found_after text found matched in_jumble = found).
  { unfold found_after.
    destruct (matched && in_jumble && negb (py_in text found)) eqn:Hacc;
      [|reflexivity].
    apply precedence_accepted in Hacc. contradiction. }
  assert (Hcheck : check contains G text s = (s, JsonError "'matches'")).
  { rewrite (check_run contains G text s letters found target
               matched in_jumble Hj Hm Ht Hc Hh).
    rewrite Hsame, (set_matches_same _ _ Hm).
    destruct (precedence matched in_jumble (py_in text found));
      [contradiction| | |]; reflexivity. }
  split; [|split; [|split]].
  - rewrite (check_body_run contains G text s letters found target
               matched in_jumble Hj Hm Ht Hc Hh).
    rewrite Hsame, (set_matches_same _ _ Hm).
    destruct (precedence matched in_jumble (py_in text found));
      [contradiction| | |]; eexists; reflexivity.
  - exact Hcheck.
  - intros w Hw.
    rewrite (check_word_run contains G text s letters found target
               matched in_jumble Hj Hm Ht Hc Hh w Hw).
    simpl. rewrite Hsame. apply set_matches_same, Hm.
  - induction n as [|n IH]; [reflexivity|].
    simpl. rewrite IH, Hcheck. reflexivity.
Qed.

Lemma check_rejected_reply_witness :
  check spec_contains demo_globals (Some "cat") (demo_session [Some "cat"])
  = (demo_session [Some "cat"], JsonError "'matches'").
Proof.
  apply (check_rejected_reply spec_contains demo_globals (Some "cat")
           (demo_session [Some "cat"]) "tac" [Some "cat"] 2 true true);
    try reflexivity.
  vm_compute. discriminate.
Defined.

(** C2.  [check] never raises to its caller, but a malformed candidate
    is not reported as an outcome: for the empty string the handler
    builds the not-a-word message and then replies with the text of the
    [KeyError] of line 127, and a candidate of other characters that is
    no vocabulary word fares the same. *)
Theorem check_malformed_text_reply :
  check_body spec_contains demo_globals (Some "") (demo_session [])
  = (demo_session [],
     inr (mkCheckResult None (Some " isn't in the list of words")
            (Some "/keep_going"), []))
  /\ check spec_contains demo_globals (Some "") (demo_session [])
     = (demo_session [], JsonError "'matches'")
  /\ check spec_contains demo_globals (Some "c4t!") (demo_session [])
     = (demo_session [], JsonError "'matches'").
Proof. repeat split; vm_compute; reflexivity. Qed.

(** ** Order of the classification *)

(** C3.  A candidate already in [matches] takes the already-found branch
    whatever the vocabulary and jumble tests answer, and [check] builds
    the already-found message for it; but the reply of [check] does not
    report a duplicate: it is the text of the [KeyError] of line 127,
    the same reply a word outside the vocabulary or the jumble gets.
    [check_word] does report it, with [already_found] set. *)
Theorem duplicate_precedes_validity contains G (text : candidate)
    (s : Session) (letters : string) (found : list candidate) (target : Z)
    (matched in_jumble : bool) :
  jumble s = Some letters ->
  matches s = Some found ->
  target_count s = Some target ->
  contains letters text = inr in_jumble ->
  has (WORDS G) text = inr matched ->
  In text found ->
  respond matched in_jumble (py_in text found) = Some DUPLICATE
  /\ check_body contains G text s =
     (s, inr (choose_page found target
                (with_message ("You already found " ++ format text)%string
                   empty_result),
              found))
  /\ check contains G text s = (s, JsonError "'matches'")
  /\ (forall w, text = Some w ->
        exists response,
          check_word contains G (Some w) s = (s, inr (response, found))
          /\ already_found response = true).
Proof.
  intros Hj Hm Ht Hc Hh Hin.
  apply py_in_In in Hin.
  assert (Hsame : found_after text found matched in_jumble = found).
  { unfold found_after. now rewrite Hin, andb_false_r. }
  split; [|split; [|split]].
  - rewrite respond_table. unfold precedence. now rewrite Hin.
  - rewrite (check_body_run contains G text s letters found target
               matched in_jumble Hj Hm Ht Hc Hh).
    rewrite Hsame. unfold precedence. rewrite Hin.
    now rewrite (set_matches_same _ _ Hm).
  - rewrite (check_run contains G text s letters found target
               matched in_jumble Hj Hm Ht Hc Hh).
    rewrite Hsame. unfold precedence. rewrite Hin.
    now rewrite (set_matches_same _ _ Hm).
  - intros w Hw.
    rewrite (check_word_run contains G text s letters found target
               matched in_jumble Hj Hm Ht Hc Hh w Hw).
    rewrite Hsame, (set_matches_same _ _ Hm).
    eexists. split; [reflexivity|]. exact Hin.
Qed.

Lemma duplicate_precedes_validity_witness :
  respond false false (py_in (Some "dog") [Some "dog"]) = Some DUPLICATE
  /\ check_body spec_contains demo_globals (Some "dog")
       (demo_session [Some "dog"]) =
     (demo_session [Some "dog"],
      inr (choose_page [Some "dog"] 2
             (with_message "You already found dog" empty_result),
           [Some "dog"]))
  /\ check spec_contains demo_globals (Some "dog")
       (demo_session [Some "dog"])
     = (demo_session [Some "dog"], JsonError "'matches'")
  /\ (forall w, Some "dog" = Some w ->
        exists response,
          check_word spec_contains demo_globals (Some w)
            (demo_session [Some "dog"])
          = (demo_session [Some "dog"], inr (response, [Some "dog"]))
          /\ already_found response = true).
Proof.
  apply (duplicate_precedes_validity spec_contains demo_globals (Some "dog")
           (demo_session [Some "dog"]) "tac" [Some "dog"] 2 false false);
    try reflexivity.
  simpl. left. reflexivity.
Defined.

(** C6.  Each of the eight combinations of the three tests selects one
    of the four outcomes, the one the precedence table names; the final
    [else] with its assertion is selected by none. *)
Theorem respond_covers_all_cases (matched in_jumble found : bool) :
  respond matched in_jumble found = Some (precedence matched in_jumble found)
  /\ respond matched in_jumble found <> None
  /\ (forall o o', respond matched in_jumble found = Some o ->
                   respond matched in_jumble found = Some o' -> o = o')
  /\ (forall text letters ms s,
        snd (check_respond text letters ms matched in_jumble s)
        <> inl AssertionError).
Proof.
  split; [apply respond_table|]. split; [|split].
  - rewrite respond_table. discriminate.
  - intros o o' H H'. congruence.
  - intros text letters ms s. unfold check_respond.
    rewrite respond_table.
    destruct (precedence matched in_jumble (py_in text ms));
      run_handler; discriminate.
Qed.

(** ** Reaching the target *)

Lemma choose_page_redirect (found : list candidate) (target : Z)
    (r : CheckResult) :
  res_redirect (choose_page found target r) =
  Some (if len found >=? target then url_success else url_keep_going).
Proof. unfold choose_page. now destruct (len found >=? target). Qed.

Lemma geb_ge (n m : Z) : (n >=? m) = true <-> n >= m.
Proof. rewrite Z.geb_le. lia. Qed.

Lemma geb_lt (n m : Z) : (n >=? m) = false <-> n < m.
Proof.
  destruct (n >=? m) eqn:H.
  - apply geb_ge in H. split; [discriminate|lia].
  - split; [|reflexivity]. intros _.
    destruct (Z.lt_ge_cases n m) as [Hlt|Hge]; [assumption|].
    assert (Ht : (n >=? m) = true) by (apply geb_ge; lia). congruence.
Qed.

Lemma found_after_cases (text : candidate) (found : list candidate)
    (matched in_jumble : bool) :
  (found_after text found matched in_jumble = found ++ [text]
   /\ matched = true /\ in_jumble = true /\ ~ In text found)
  \/ (found_after text found matched in_jumble = found
      /\ ~ (matched = true /\ in_jumble = true /\ ~ In text found)).
Proof.
  unfold found_after.
  destruct matched, in_jumble, (py_in text found) eqn:Hin; simpl;
    try (right; split; [reflexivity|]; intros [? [? ?]]; discriminate).
  - right. split; [reflexivity|]. intros [_ [_ Hn]].
    apply Hn, py_in_In, Hin.
  - left. repeat split. now apply py_in_not_In.
Qed.

(** C7, as the code has it.  On an initialised session, a [check] that
    accepts its candidate replies with the success page exactly when
    [matches] has reached [target_count] and with the keep-going page
    otherwise; a [check_word] that returns sets its redirect to the
    success page on the same test and sets no redirect otherwise.  From
    a session still short of the target, the target is reached exactly
    by a request that appends its candidate and brings the length to
    [target_count], and that is when the reply of [check] redirects to
    success. *)
Theorem completion_signal contains G (text : candidate) (s : Session)
    (letters : string) (found : list candidate) (target : Z)
    (matched in_jumble : bool) :
  jumble s = Some letters ->
  matches s = Some found ->
  target_count s = Some target ->
  contains letters text = inr in_jumble ->
  has (WORDS G) text = inr matched ->
  (matched = true /\ in_jumble = true /\ ~ In text found ->
   exists result,
     check contains G text s
     = (set_matches (found ++ [text]) s, JsonResult result)
     /\ res_matches result = Some (found ++ [text])
     /\ (res_redirect result = Some url_success <->
         len (found ++ [text]) >= target)
     /\ (res_redirect result = Some url_keep_going <->
         len (found ++ [text]) < target))
  /\ (forall w, text = Some w ->
        exists response,
          check_word contains G (Some w) s =
            (set_matches (found_after text found matched in_jumble) s,
             inr (response, found_after text found matched in_jumble))
          /\ (redirect_url response = Some url_success <->
              len (found_after text found matched in_jumble) >= target)
          /\ (redirect_url response = None <->
              len (found_after text found matched in_jumble) < target))
  /\ (len found < target ->
      (len (found_after text found matched in_jumble) >= target <->
       found_after text found matched in_jumble = found ++ [text]
       /\ len (found ++ [text]) = target))
  /\ (len found < target ->
      ((exists r, snd (check contains G text s) = JsonResult r
                  /\ res_redirect r = Some url_success) <->
       len (found_after text found matched in_jumble) >= target)).
Proof.
  intros Hj Hm Ht Hc Hh.
  pose proof (check_run contains G text s letters found target
                matched in_jumble Hj Hm Ht Hc Hh) as Hcheck.
  pose proof (found_after_cases text found matched in_jumble) as Hcases.
  set (found' := found_after text found matched in_jumble) in *.
  split; [|split; [|split]].
  - intros [-> [-> Hnew]].
    destruct Hcases as [[Heq _]|[_ Hrej]];
      [|exfalso; apply Hrej; repeat split; assumption].
    apply py_in_not_In in Hnew.
    unfold precedence in Hcheck. rewrite Hnew in Hcheck. simpl in Hcheck.
    rewrite Heq in Hcheck.
    eexists. split; [exact Hcheck|].
    rewrite choose_page_redirect.
    split; [unfold choose_page;
            destruct (len (found ++ [text]) >=? target); reflexivity|].
    destruct (len (found ++ [text]) >=? target) eqn:Hge.
    + apply geb_ge in Hge. split; split; intros H;
        try reflexivity; try assumption; try lia; discriminate.
    + apply geb_lt in Hge. split; split; intros H;
        try reflexivity; try assumption; try lia; discriminate.
  - intros w Hw.
    pose proof (check_word_run contains G text s letters found target
                  matched in_jumble Hj Hm Ht Hc Hh w Hw) as Hword.
    fold found' in Hword.
    eexists. split; [exact Hword|]. simpl.
    destruct (len found' >=? target) eqn:Hge.
    + apply geb_ge in Hge. split; split; intros H;
        try reflexivity; try assumption; try lia; discriminate.
    + apply geb_lt in Hge. split; split; intros H;
        try reflexivity; try assumption; try lia; discriminate.
  - intros Hshort.
    destruct Hcases as [[Heq _]|[Heq _]]; rewrite Heq.
    + rewrite len_app_one. split; [intros H; split; [reflexivity|lia]|].
      intros [_ H]. lia.
    + split; [lia|]. intros [Happ _].
      apply (f_equal (@length candidate)) in Happ.
      rewrite length_app in Happ. simpl in Happ. lia.
  - intros Hshort. rewrite Hcheck. simpl.
    destruct Hcases as [[Heq [-> [-> Hnew]]]|[Heq Hrej]].
    + apply py_in_not_In in Hnew. unfold precedence. rewrite Hnew. simpl.
      split.
      * intros [r [Hr Hred]]. injection Hr as <-.
        rewrite choose_page_redirect in Hred.
        destruct (len found' >=? target) eqn:Hge;
          [now apply geb_ge in Hge|discriminate].
      * intros Hge. eexists. split; [reflexivity|].
        rewrite choose_page_redirect.
        apply geb_ge in Hge. now rewrite Hge.
    + split.
      * intros [r [Hr _]].
        destruct (precedence matched in_jumble (py_in text found)) eqn:Hp;
          try discriminate.
        apply precedence_accepted in Hp.
        exfalso. apply Hrej.
        apply andb_prop in Hp as [Hp Hn]. apply andb_prop in Hp as [-> ->].
        repeat split. apply py_in_not_In.
        now destruct (py_in text found).
      * rewrite Heq. lia.
Qed.

Lemma completion_signal_witness :
  (exists r,
      snd (check spec_contains demo_globals (Some "cat")
             (demo_session [Some "car"])) = JsonResult r
      /\ res_redirect r = Some url_success)
  <-> len (found_after (Some "cat") [Some "car"] true true) >= 2.
Proof.
  pose proof (completion_signal spec_contains demo_globals (Some "cat")
                (demo_session [Some "car"]) "tac" [Some "car"] 2 true true
                eq_refl eq_refl eq_refl eq_refl eq_refl) as H.
  destruct H as [_ [_ [_ H]]]. apply H. reflexivity.
Defined.

(** C7 as stated fails for [check_word]: on a session short of the
    target its response carries no redirect at all, to the keep-going
    page or elsewhere. *)
Lemma check_word_has_no_keep_going :
  len (@nil candidate) < 2
  /\ exists response,
       check_word spec_contains demo_globals (Some "dog") (demo_session [])
       = (demo_session [], inr (response, []))
       /\ redirect_url response = None
       /\ redirect_url response <> Some url_keep_going.
Proof.
  split; [reflexivity|].
  exists (mkWordResponse false false None).
  split; [reflexivity|]. split; [reflexivity|discriminate].
Qed.

(** ** Seeding the jumble *)




(** ** The session a start leaves *)

(** C5.  When the generator returns a jumble, [index] leaves a session
    whose [target_count] is the smaller of the vocabulary size and the
    configured threshold, whose [matches] is the empty list and whose
    [jumble] is the generated string, and it renders the game page when
    that target is positive; neither word handler ever writes
    [target_count]. *)
Theorem index_establishes_session
    (jumbled : list string -> Z -> option Z -> Z -> throws string) G
    (entropy : Z) (s : Session) (letters : string) :
  jumbled (as_list (WORDS G)) (index_target G) (seed_arg (SEED G)) entropy
    = inr letters ->
  fst (index jumbled G entropy s) =
    mkSession (Some letters)
      (Some (Z.min (len (as_list (WORDS G))) (SUCCESS_AT_COUNT (CONFIG G))))
      (Some [])
  /\ (0 < index_target G ->
      snd (index jumbled G entropy s) = inr (Template "vocab.html"))
  /\ (forall contains text s0,
        target_count (fst (check contains G text s0)) = target_count s0)
  /\ (forall contains attempt s0,
        target_count (fst (check_word contains G attempt s0))
        = target_count s0).
Proof.
  intros Hgen. rewrite (index_run jumbled G entropy s letters Hgen).
  split; [reflexivity|]. split; [|split].
  - intros Hpos. simpl. apply Z.ltb_lt in Hpos. now rewrite Hpos.
  - intros contains text s0. rewrite check_session.
    apply (keeps_check_body contains G text s0).
  - intros contains attempt s0.
    apply (keeps_check_word contains G attempt s0).
Qed.

Lemma index_establishes_session_witness :
  fst (index spec_jumbled demo_globals 7 empty_session)
  = mkSession (Some "atcarc") (Some 2) (Some []).
Proof.
  apply (index_establishes_session spec_jumbled demo_globals 7 empty_session
           "atcarc").
  reflexivity.
Defined.

(** ** Case of the submitted text *)

(** C8, as the code has it.  [check] does not change the case of the
    candidate.  The duplicate test is membership of the text as
    submitted, by exact equality; the vocabulary and jumble tests are
    the answers of [has] and [contains] for that same text; and a
    candidate that passes is appended as submitted. *)
Theorem check_takes_text_as_given contains G (text : candidate)
    (s : Session) (letters : string) (found : list candidate) (target : Z)
    (matched in_jumble : bool) :
  jumble s = Some letters ->
  matches s = Some found ->
  target_count s = Some target ->
  contains letters text = inr in_jumble ->
  has (WORDS G) text = inr matched ->
  (In text found ->
     check_body contains G text s =
     (s, inr (choose_page found target
                (with_message ("You already found " ++ format text)%string
                   empty_result),
              found)))
  /\ (~ In text found -> matched = true -> in_jumble = true ->
      check_body contains G text s =
      (set_matches (found ++ [text]) s,
       inr (choose_page (found ++ [text]) target
              (with_matches (found ++ [text]) empty_result),
            found ++ [text])))
  /\ (~ In text found -> matched = false \/ in_jumble = false ->
      fst (check_body contains G text s) = s).
Proof.
  intros Hj Hm Ht Hc Hh.
  rewrite (check_body_run contains G text s letters found target
             matched in_jumble Hj Hm Ht Hc Hh).
  unfold found_after, precedence.
  split; [|split].
  - intros Hin. apply py_in_In in Hin. rewrite Hin, andb_false_r.
    now rewrite (set_matches_same _ _ Hm).
  - intros Hnew -> ->. apply py_in_not_In in Hnew. rewrite Hnew.
    reflexivity.
  - intros Hnew Hfail. simpl.
    destruct Hfail as [-> | ->]; rewrite ?andb_false_r; simpl;
      apply set_matches_same, Hm.
Qed.

Lemma check_takes_text_as_given_witness :
  check_body spec_contains demo_globals (Some "Cat")
    (demo_session [Some "cat"]) =
  (set_matches [Some "cat"; Some "Cat"] (demo_session [Some "cat"]),
   inr (choose_page [Some "cat"; Some "Cat"] 2
          (with_matches [Some "cat"; Some "Cat"] empty_result),
        [Some "cat"; Some "Cat"])).
Proof.
  pose proof (check_takes_text_as_given spec_contains demo_globals
                (Some "Cat") (demo_session [Some "cat"]) "tac"
                [Some "cat"] 2 true true
                eq_refl eq_refl eq_refl eq_refl eq_refl) as H.
  destruct H as [_ [H _]]. apply H; try reflexivity.
  simpl. intros [Heq | []]. discriminate.
Defined.

(** C8 as stated fails for a candidate in another case than the word
    already found: the duplicate test answers differently for the text
    and for its lowercase form, and the text is accepted and stored a
    second time. *)
Lemma mixed_case_is_not_duplicate :
  py_in (Some "Cat") [Some "cat"] = false
  /\ py_in (Some (lower "Cat")) [Some "cat"] = true
  /\ matches (fst (check spec_contains demo_globals (Some "Cat")
                     (demo_session [Some "cat"])))
     = Some [Some "cat"; Some "Cat"]
  /\ matches (fst (check spec_contains demo_globals (Some (lower "Cat"))
                     (demo_session [Some "cat"])))
     = Some [Some "cat"].
Proof. repeat split. Qed.

(** ** An empty vocabulary *)

(** C9, as the code has it.  With an empty vocabulary every [index]
    request fails and renders no page.  The target is [min(0, threshold)]
    and so not positive; if the generator raises, [index] fails with
    that exception after [target_count] was written; if it returns, all
    three session keys are written and the assertion on the target
    fails. *)
Theorem index_empty_vocabulary
    (jumbled : list string -> Z -> option Z -> Z -> throws string) G
    (entropy : Z) (s : Session) :
  as_list (WORDS G) = [] ->
  index_target G <= 0
  /\ (forall page, snd (index jumbled G entropy s) <> inr page)
  /\ (forall e,
        jumbled [] (index_target G) (seed_arg (SEED G)) entropy = inl e ->
        index jumbled G entropy s
        = (set_target_count (index_target G) s, inl e))
  /\ (forall letters,
        jumbled [] (index_target G) (seed_arg (SEED G)) entropy
          = inr letters ->
        index jumbled G entropy s
        = (mkSession (Some letters) (Some (index_target G)) (Some []),
           inl AssertionError)).
Proof.
  intros Hempty.
  assert (Hle : index_target G <= 0).
  { unfold index_target. rewrite Hempty. unfold len. simpl. lia. }
  assert (Hltb : (0 <? index_target G) = false) by (apply Z.ltb_ge, Hle).
  split; [exact Hle|].
  split; [|split].
  - intros page.
    destruct (jumbled (as_list (WORDS G)) (index_target G)
                (seed_arg (SEED G)) entropy) as [e|letters] eqn:Hgen.
    + rewrite (index_raises jumbled G entropy s e Hgen). discriminate.
    + rewrite (index_run jumbled G entropy s letters Hgen), Hltb.
      discriminate.
  - intros e Hgen. apply index_raises. now rewrite Hempty.
  - intros letters Hgen.
    rewrite (index_run jumbled G entropy s letters)
      by (now rewrite Hempty).
    now rewrite Hltb.
Qed.

Lemma index_empty_vocabulary_witness :
  index sampling_jumbled empty_globals 7 empty_session
  = (mkSession (Some "") (Some 0) (Some []), inl AssertionError).
Proof.
  pose proof (index_empty_vocabulary sampling_jumbled empty_globals 7
                empty_session eq_refl) as H.
  destruct H as [_ [_ [_ H]]]. apply (H ""). reflexivity.
Defined.

(** C9 as stated fails: loading the module succeeds with an empty
    vocabulary, the failure comes with each [index] request, and other
    pages are served after it.  With a generator that returns, the
    failure is an [AssertionError] and the session keys are written;
    with a generator that raises on an empty vocabulary, [target_count]
    is written before the exception leaves the handler. *)
Lemma empty_vocabulary_fails_per_request :
  module_init demo_config (inr (spec_vocab [])) (inr 1) = inr empty_globals
  /\ index sampling_jumbled empty_globals 7 empty_session
     = (mkSession (Some "") (Some 0) (Some []), inl AssertionError)
  /\ exn_class AssertionError <> "ConfigurationError"
  /\ index spec_jumbled empty_globals 7 empty_session
     = (mkSession None (Some 0) None,
        inl (Exn "ConfigurationError" "the vocabulary is empty"))
  /\ snd (success (fst (index spec_jumbled empty_globals 7 empty_session)))
     = inr (Template "success.html").
Proof.
  repeat split. vm_compute. discriminate.
Qed.

(** ** The two word handlers *)

(** C10.  On an initialised session and for the same submitted string,
    [check] and [check_word] append under the same condition (the
    string is in the vocabulary, is spellable from the jumble and is not
    yet in [matches]), append that same string, and leave the same list
    bound to [matches] and the same session. *)
Theorem check_and_check_word_agree contains G (w : string) (s : Session)
    (letters : string) (found : list candidate) (target : Z)
    (matched in_jumble : bool) :
  jumble s = Some letters ->
  matches s = Some found ->
  target_count s = Some target ->
  contains letters (Some w) = inr in_jumble ->
  has (WORDS G) (Some w) = inr matched ->
  exists (result : CheckResult) (response : WordResponse)
         (found' : list candidate),
    check_body contains G (Some w) s = (set_matches found' s,
                                        inr (result, found'))
    /\ check_word contains G (Some w) s = (set_matches found' s,
                                           inr (response, found'))
    /\ fst (check contains G (Some w) s) = set_matches found' s
    /\ (matched = true /\ in_jumble = true /\ ~ In (Some w) found ->
        found' = found ++ [Some w])
    /\ (~ (matched = true /\ in_jumble = true /\ ~ In (Some w) found) ->
        found' = found).
Proof.
  intros Hj Hm Ht Hc Hh.
  pose proof (check_body_run contains G (Some w) s letters found target
                matched in_jumble Hj Hm Ht Hc Hh) as Hbody.
  pose proof (check_word_run contains G (Some w) s letters found target
                matched in_jumble Hj Hm Ht Hc Hh w eq_refl) as Hword.
  do 3 eexists. split; [exact Hbody|]. split; [exact Hword|].
  split; [rewrite check_session, Hbody; reflexivity|].
  destruct (found_after_cases (Some w) found matched in_jumble)
    as [[Heq Hacc]|[Heq Hrej]]; rewrite Heq; split; intros H;
    try reflexivity; contradiction.
Qed.

Lemma check_and_check_word_agree_witness :
  exists (result : CheckResult) (response : WordResponse)
         (found' : list candidate),
    check_body spec_contains demo_globals (Some "cat") (demo_session [])
    = (set_matches found' (demo_session []), inr (result, found'))
    /\ check_word spec_contains demo_globals (Some "cat") (demo_session [])
       = (set_matches found' (demo_session []), inr (response, found'))
    /\ fst (check spec_contains demo_globals (Some "cat") (demo_session []))
       = set_matches found' (demo_session [])
    /\ (true = true /\ true = true /\ ~ In (Some "cat") [] ->
        found' = [] ++ [Some "cat"])
    /\ (~ (true = true /\ true = true /\ ~ In (Some "cat") []) ->
        found' = []).
Proof.
  apply (check_and_check_word_agree spec_contains demo_globals "cat"
           (demo_session []) "tac" [] 2 true true); reflexivity.
Defined.

(** * Further properties of the handlers *)

(** ** One request, on any session *)

Ltac run_all :=
  unfold check, check_body, check_word, check_respond, check_log,
    choose_page, respond, bind, call, ret, raise, session_jumble,
    session_get_matches, session_target_count, session_set_matches,
    matches_append, current_matches in *;
  simpl in *.

(** What a [check] request does to the session: nothing, or the one
    append, and then only with all three tests passed. *)
Lemma check_step contains G (text : candidate) (s : Session) :
  fst (check contains G text s) = s
  \/ (exists letters found,
        jumble s = Some letters /\ matches s = Some found
        /\ contains letters text = inr true
        /\ has (WORDS G) text = inr true
        /\ py_in text found = false
        /\ fst (check contains G text s) = set_matches (found ++ [text]) s).
Proof.
  rewrite check_session.
  destruct (jumble s) as [letters|] eqn:Hj;
    [|left; run_all; now rewrite Hj].
  destruct (contains letters text) as [e|in_jumble] eqn:Hc;
    [left; run_all; now rewrite Hj, Hc|].
  destruct (has (WORDS G) text) as [e|matched] eqn:Hh;
    [left; run_all; now rewrite Hj, Hc, Hh|].
  destruct (matches s) as [found|] eqn:Hm.
  - destruct matched, in_jumble, (py_in text found) eqn:Hin;
      try (left; run_all; rewrite Hj, Hc, Hh, Hm; simpl; rewrite ?Hin;
           simpl; destruct (target_count s); reflexivity).
    right. exists letters, found. repeat split; try assumption.
    run_all. rewrite Hj, Hc, Hh, Hm. simpl. rewrite Hin. simpl.
    rewrite Hm. simpl. destruct (target_count s); reflexivity.
  - left. run_all. rewrite Hj, Hc, Hh, Hm. simpl.
    destruct matched, in_jumble; simpl; rewrite ?Hm; simpl;
      destruct (target_count s); reflexivity.
Qed.

(** The same for [check_word]; it stores the list even when the session
    had no [matches] key. *)
Lemma check_word_step contains G (attempt : option string) (s : Session) :
  fst (check_word contains G attempt s) = s
  \/ (exists w letters,
        attempt = Some w /\ jumble s = Some letters
        /\ contains letters (Some w) = inr true
        /\ has (WORDS G) (Some w) = inr true
        /\ py_in (Some w) (current_matches s) = false
        /\ fst (check_word contains G attempt s)
           = set_matches (current_matches s ++ [Some w]) s).
Proof.
  destruct attempt as [w|]; [|left; reflexivity].
  destruct (jumble s) as [letters|] eqn:Hj;
    [|left; run_all; now rewrite Hj].
  destruct (contains letters (Some w)) as [e|in_jumble] eqn:Hc;
    [left; run_all; now rewrite Hj, Hc|].
  destruct (has (WORDS G) (Some w)) as [e|matched] eqn:Hh;
    [left; run_all; now rewrite Hj, Hc, Hh|].
  destruct matched, in_jumble, (py_in (Some w) (current_matches s)) eqn:Hin;
    try (left; run_all; rewrite Hj, Hc, Hh; simpl; rewrite ?Hin; simpl;
         destruct (target_count s); reflexivity).
  right. exists w, letters. repeat split; try assumption.
  run_all. rewrite Hj, Hc, Hh. simpl. rewrite Hin. simpl.
  destruct (matches s); simpl; destruct (target_count s); reflexivity.
Qed.

(** The reply of [check] once the session has a jumble and a target
    and the collaborators answer, with or without a [matches] key. *)
Lemma check_reply_any contains G (text : candidate) (s : Session)
    (letters : string) (target : Z) (matched in_jumble : bool) :
  jumble s = Some letters ->
  target_count s = Some target ->
  contains letters text = inr in_jumble ->
  has (WORDS G) text = inr matched ->
  snd (check contains G text s) =
  match precedence matched in_jumble (py_in text (current_matches s)) with
  | ACCEPTED =>
      JsonResult
        (choose_page (current_matches s ++ [text]) target
           (with_matches (current_matches s ++ [text]) empty_result))
  | _ => JsonError "'matches'"
  end.
Proof.
  intros Hj Ht Hc Hh.
  destruct (matches s) as [found|] eqn:Hm.
  - rewrite (check_run contains G text s letters found target
               matched in_jumble Hj Hm Ht Hc Hh).
    unfold current_matches. rewrite Hm. simpl.
    destruct (precedence matched in_jumble (py_in text found)) eqn:Hp;
      try reflexivity.
    apply precedence_accepted in Hp. unfold found_after. now rewrite Hp.
  - unfold current_matches. rewrite Hm. unfold precedence. simpl.
    run_all. rewrite Hj, Hc, Hh. simpl. rewrite ?Hm. simpl.
    destruct matched, in_jumble; simpl; rewrite ?Hm, ?Ht; simpl;
      match goal with
      | |- context [?a >=? target] => destruct (a >=? target)
      end; reflexivity.
Qed.

(** X1.  [check] replies with its [result] dictionary exactly when the
    session holds a jumble and a target, both collaborators answer true
    and the text is not yet among the matches; the dictionary then
    holds the grown list and the chosen page and never a message.  On
    every other input the reply is an [error] text. *)
Theorem check_replies_result_iff contains G (text : candidate) (s : Session)
    (r : CheckResult) :
  (snd (check contains G text s) = JsonResult r <->
   exists letters target,
     jumble s = Some letters /\ target_count s = Some target
     /\ contains letters text = inr true
     /\ has (WORDS G) text = inr true
     /\ py_in text (current_matches s) = false
     /\ r = choose_page (current_matches s ++ [text]) target
              (with_matches (current_matches s ++ [text]) empty_result))
  /\ (snd (check contains G text s) = JsonResult r -> res_message r = None).
Proof.
  assert (Hiff :
    snd (check contains G text s) = JsonResult r <->
    exists letters target,
      jumble s = Some letters /\ target_count s = Some target
      /\ contains letters text = inr true
      /\ has (WORDS G) text = inr true
      /\ py_in text (current_matches s) = false
      /\ r = choose_page (current_matches s ++ [text]) target
               (with_matches (current_matches s ++ [text]) empty_result)).
  { split.
    - intros Hreply.
      destruct (jumble s) as [letters|] eqn:Hj;
        [|run_all; rewrite Hj in Hreply; discriminate].
      destruct (contains letters text) as [e|in_jumble] eqn:Hc;
        [run_all; rewrite Hj, Hc in Hreply; discriminate|].
      destruct (has (WORDS G) text) as [e|matched] eqn:Hh;
        [run_all; rewrite Hj, Hc, Hh in Hreply; discriminate|].
      destruct (target_count s) as [target|] eqn:Ht.
      + rewrite (check_reply_any contains G text s letters target
                   matched in_jumble Hj Ht Hc Hh) in Hreply.
        destruct (precedence matched in_jumble
                    (py_in text (current_matches s))) eqn:Hp;
          try discriminate.
        apply precedence_accepted in Hp.
        apply andb_prop in Hp as [Hp Hin].
        apply andb_prop in Hp as [-> ->].
        apply negb_true_iff in Hin.
        injection Hreply as <-.
        exists letters, target. repeat split; assumption.
      + exfalso.
        destruct (matches s) as [found|] eqn:Hm; revert Hreply; run_all;
          rewrite Hj, Hc, Hh; simpl; rewrite ?Hm; simpl;
          destruct matched, in_jumble; simpl;
          try destruct (py_in text found); simpl;
          do 3 (rewrite ?Hm, ?Ht; simpl); discriminate.
    - intros [letters [target [Hj [Ht [Hc [Hh [Hin ->]]]]]]].
      rewrite (check_reply_any contains G text s letters target
                 true true Hj Ht Hc Hh).
      unfold precedence. now rewrite Hin. }
  split; [exact Hiff|].
  intros Hreply. apply Hiff in Hreply.
  destruct Hreply as [letters [target [_ [_ [_ [_ [_ ->]]]]]]].
  unfold choose_page.
  destruct (len (current_matches s ++ [text]) >=? target); reflexivity.
Qed.

(** X2.  The error texts of [check].  A session without a jumble gives
    the text of that [KeyError] and a raising collaborator gives the
    text of its exception, the session being left as it was; a session
    without a target gives the text of that [KeyError] only after the
    append has been made. *)
Theorem check_error_texts contains G (text : candidate) (s : Session) :
  (jumble s = None -> check contains G text s = (s, JsonError "'jumble'"))
  /\ (forall letters e,
        jumble s = Some letters -> contains letters text = inl e ->
        check contains G text s = (s, JsonError (str e)))
  /\ (forall letters in_jumble e,
        jumble s = Some letters ->
        contains letters text = inr in_jumble ->
        has (WORDS G) text = inl e ->
        check contains G text s = (s, JsonError (str e)))
  /\ (forall letters found in_jumble matched,
        jumble s = Some letters -> matches s = Some found ->
        contains letters text = inr in_jumble ->
        has (WORDS G) text = inr matched ->
        target_count s = None ->
        check contains G text s =
        (set_matches (found_after text found matched in_jumble) s,
         JsonError "'target_count'")).
Proof.
  split; [|split; [|split]].
  - intros Hj. run_all. now rewrite Hj.
  - intros letters e Hj Hc. run_all. now rewrite Hj, Hc.
  - intros letters in_jumble e Hj Hc Hh. run_all. now rewrite Hj, Hc, Hh.
  - intros letters found in_jumble matched Hj Hm Hc Hh Ht.
    unfold found_after. run_all. rewrite Hj, Hc, Hh. simpl.
    rewrite Hm. simpl.
    destruct matched, in_jumble, (py_in text found); simpl;
      do 3 (rewrite ?Hm, ?Ht; simpl);
      rewrite ?(set_matches_same _ _ Hm); reflexivity.
Qed.

(** The response of [check_word] whenever it returns, on any session. *)
Lemma check_word_returns contains G (attempt : option string) (s : Session)
    (response : WordResponse) (found' : list candidate) :
  snd (check_word contains G attempt s) = inr (response, found') ->
  exists w letters target in_jumble matched,
    attempt = Some w /\ jumble s = Some letters
    /\ target_count s = Some target
    /\ contains letters (Some w) = inr in_jumble
    /\ has (WORDS G) (Some w) = inr matched
    /\ found' = found_after (Some w) (current_matches s) matched in_jumble
    /\ fst (check_word contains G attempt s) =
       (if matched && in_jumble && negb (py_in (Some w) (current_matches s))
        then set_matches found' s else s)
    /\ response =
       mkWordResponse (matched && in_jumble)
         (py_in (Some w) (current_matches s))
         (if len found' >=? target then Some url_success else None).
Proof.
  intros Hret.
  destruct attempt as [w|]; [|discriminate].
  destruct (jumble s) as [letters|] eqn:Hj;
    [|run_all; rewrite Hj in Hret; discriminate].
  destruct (contains letters (Some w)) as [e|in_jumble] eqn:Hc;
    [run_all; rewrite Hj, Hc in Hret; discriminate|].
  destruct (has (WORDS G) (Some w)) as [e|matched] eqn:Hh;
    [run_all; rewrite Hj, Hc, Hh in Hret; discriminate|].
  destruct (target_count s) as [target|] eqn:Ht.
  - exists w, letters, target, in_jumble, matched.
    repeat (split; [reflexivity|]).
    unfold found_after. revert Hret. run_all. rewrite Hj, Hc, Hh. simpl.
    destruct (matched && in_jumble
              && negb (py_in (Some w)
                         match matches s with Some ms => ms | None => [] end))
      eqn:Hacc; simpl.
    + destruct (matches s); simpl; rewrite Ht; simpl;
        intros Hret; injection Hret as <- <-;
        repeat split;
        match goal with
        | |- context [?a >=? target] => destruct (a >=? target)
        end; reflexivity.
    + rewrite Ht. simpl. intros Hret. injection Hret as <- <-.
      repeat split.
      match goal with
      | |- context [?a >=? target] => destruct (a >=? target)
      end; reflexivity.
  - exfalso. revert Hret. run_all. rewrite Hj, Hc, Hh. simpl.
    destruct (matched && in_jumble
              && negb (py_in (Some w)
                         match matches s with Some ms => ms | None => [] end));
      simpl; destruct (matches s); simpl; do 3 (rewrite ?Ht; simpl);
      discriminate.
Qed.

(** X3.  [check_word] returns a response exactly when the form has the
    field, the session has a jumble and a target and both collaborators
    answer; otherwise an exception leaves the handler.  For a missing
    field it is the bad-request error, for a missing jumble its
    [KeyError], for a raising collaborator that collaborator's
    exception, each with the session as it was.  For a missing target
    it is that [KeyError], raised after a word that passed has been
    appended and stored. *)
Theorem check_word_returns_iff contains G (attempt : option string)
    (s : Session) :
  ((exists response, snd (check_word contains G attempt s) = inr response)
   <-> exists w letters target in_jumble matched,
         attempt = Some w /\ jumble s = Some letters
         /\ target_count s = Some target
         /\ contains letters (Some w) = inr in_jumble
         /\ has (WORDS G) (Some w) = inr matched)
  /\ (attempt = None ->
      check_word contains G attempt s = (s, inl BadRequestKeyError))
  /\ (forall w, attempt = Some w -> jumble s = None ->
      check_word contains G attempt s = (s, inl (KeyError "jumble")))
  /\ (forall w letters e,
        attempt = Some w -> jumble s = Some letters ->
        contains letters (Some w) = inl e ->
        check_word contains G attempt s = (s, inl e))
  /\ (forall w letters in_jumble e,
        attempt = Some w -> jumble s = Some letters ->
        contains letters (Some w) = inr in_jumble ->
        has (WORDS G) (Some w) = inl e ->
        check_word contains G attempt s = (s, inl e))
  /\ (forall w letters in_jumble matched,
        attempt = Some w -> jumble s = Some letters ->
        contains letters (Some w) = inr in_jumble ->
        has (WORDS G) (Some w) = inr matched ->
        target_count s = None ->
        check_word contains G attempt s =
        (if matched && in_jumble
            && negb (py_in (Some w) (current_matches s))
         then set_matches (current_matches s ++ [Some w]) s
         else s,
         inl (KeyError "target_count"))).
Proof.
  split; [|split; [|split; [|split; [|split]]]].
  - split.
    + intros [[response found'] Hret].
      destruct (check_word_returns contains G attempt s response found' Hret)
        as [w [letters [target [in_jumble [matched
             [Ha [Hj [Ht [Hc [Hh _]]]]]]]]]].
      exists w, letters, target, in_jumble, matched. repeat split; assumption.
    + intros [w [letters [target [in_jumble [matched
                [-> [Hj [Ht [Hc Hh]]]]]]]]].
      run_all. rewrite Hj, Hc, Hh. simpl.
      destruct (matched && in_jumble
                && negb (py_in (Some w)
                           match matches s with
                           | Some ms => ms
                           | None => []
                           end));
        simpl; destruct (matches s); simpl; do 3 (rewrite ?Ht; simpl);
        eexists; reflexivity.
  - intros ->. reflexivity.
  - intros w -> Hj. run_all. now rewrite Hj.
  - intros w letters e -> Hj Hc. run_all. now rewrite Hj, Hc.
  - intros w letters in_jumble e -> Hj Hc Hh. run_all.
    now rewrite Hj, Hc, Hh.
  - intros w letters in_jumble matched -> Hj Hc Hh Ht.
    run_all. rewrite Hj, Hc, Hh. simpl.
    destruct (matched && in_jumble
              && negb (py_in (Some w)
                         match matches s with
                         | Some ms => ms
                         | None => []
                         end));
      simpl; destruct (matches s); simpl; do 3 (rewrite ?Ht; simpl);
      reflexivity.
Qed.

(** ** A sequence of requests to [check_word] *)

Lemma current_matches_set (found : list candidate) (s : Session) :
  current_matches (set_matches found s) = found.
Proof. reflexivity. Qed.

Lemma play_extends contains G (attempts : list (option string))
    (s : Session) :
  jumble (play_words contains G attempts s) = jumble s
  /\ target_count (play_words contains G attempts s) = target_count s
  /\ exists added,
       current_matches (play_words contains G attempts s)
       = current_matches s ++ added
       /\ (length added <= length attempts)%nat
       /\ forall x, In x added ->
            In x attempts
            /\ ~ In x (current_matches s)
            /\ exists letters,
                 jumble s = Some letters
                 /\ contains letters x = inr true
                 /\ has (WORDS G) x = inr true.
Proof.
  revert s. induction attempts as [|a attempts IH]; intros s.
  - simpl. repeat split. exists []. rewrite app_nil_r.
    repeat split; try reflexivity; try (simpl; lia); contradiction.
  - simpl.
    destruct (IH (word_request contains G a s))
      as [IHj [IHt [added [IHm [IHlen IHin]]]]].
    unfold word_request in *.
    destruct (check_word_step contains G a s)
      as [Hsame|[w [letters [-> [Hj [Hc [Hh [Hin Hstep]]]]]]]].
    + rewrite Hsame in *. split; [assumption|]. split; [assumption|].
      exists added. split; [assumption|]. split; [lia|].
      intros x Hx. destruct (IHin x Hx) as [H1 [H2 H3]].
      repeat split; [now right|assumption|assumption].
    + rewrite Hstep in *. simpl in IHj, IHt.
      split; [assumption|]. split; [assumption|].
      rewrite current_matches_set in IHm, IHin.
      exists (Some w :: added).
      split; [rewrite IHm, <- app_assoc; reflexivity|].
      split; [simpl; lia|].
      intros x [<-|Hx].
      * repeat split; [now left|now apply py_in_not_In|].
        exists letters. repeat split; assumption.
      * destruct (IHin x Hx) as [H1 [H2 [letters' [H3 [H4 H5]]]]].
        repeat split; [now right| |].
        -- intros Hold. apply H2. apply in_or_app. now left.
        -- exists letters'. repeat split; assumption.
Qed.

Lemma play_nodup contains G (attempts : list (option string))
    (s : Session) :
  NoDup (current_matches s) ->
  NoDup (current_matches (play_words contains G attempts s)).
Proof.
  revert s. induction attempts as [|a attempts IH]; intros s Hnd;
    [exact Hnd|].
  simpl. apply IH. unfold word_request.
  destruct (check_word_step contains G a s)
    as [Hsame|[w [letters [_ [_ [_ [_ [Hin Hstep]]]]]]]].
  - now rewrite Hsame.
  - rewrite Hstep, current_matches_set.
    apply NoDup_app; [assumption|constructor; [intros []|constructor]|].
    intros x Hx [<-|[]]. now apply py_in_not_In in Hin.
Qed.

Lemma play_keeps_key contains G (attempts : list (option string))
    (s : Session) :
  matches s <> None ->
  matches (play_words contains G attempts s)
  = Some (current_matches (play_words contains G attempts s)).
Proof.
  revert s. induction attempts as [|a attempts IH]; intros s Hkey.
  - simpl. unfold current_matches. now destruct (matches s).
  - simpl. apply IH. unfold word_request.
    destruct (check_word_step contains G a s)
      as [Hsame|[w [l [_ [_ [_ [_ [_ Hstep]]]]]]]].
    + now rewrite Hsame.
    + rewrite Hstep. discriminate.
Qed.

(** X4.  On a session that has a target, whatever the player posts to
    /_check/word and however often, the jumble and the target stay as
    they were and the matches only grow at the end, by at most one
    entry per request; every entry added was posted by one of the
    requests, both collaborators answered true for it, and it was not
    present before. *)
Theorem play_grows_matches contains G (attempts : list (option string))
    (s : Session) (target : Z) :
  target_count s = Some target ->
  jumble (play_words contains G attempts s) = jumble s
  /\ target_count (play_words contains G attempts s) = Some target
  /\ exists added,
       current_matches (play_words contains G attempts s)
       = current_matches s ++ added
       /\ (length added <= length attempts)%nat
       /\ forall x, In x added ->
            In x attempts
            /\ ~ In x (current_matches s)
            /\ exists letters,
                 jumble s = Some letters
                 /\ contains letters x = inr true
                 /\ has (WORDS G) x = inr true.
Proof.
  intros Ht.
  destruct (play_extends contains G attempts s) as [Hj [Ht' Hadded]].
  split; [exact Hj|]. split; [now rewrite Ht'|exact Hadded].
Qed.

Lemma play_grows_matches_witness :
  jumble (play_words spec_contains demo_globals
            [Some "cat"; Some "dog"; Some "cat"; None; Some "act"]
            (demo_session [])) = Some "tac"
  /\ target_count (play_words spec_contains demo_globals
                     [Some "cat"; Some "dog"; Some "cat"; None; Some "act"]
                     (demo_session [])) = Some 2
  /\ exists added,
       current_matches
         (play_words spec_contains demo_globals
            [Some "cat"; Some "dog"; Some "cat"; None; Some "act"]
            (demo_session []))
       = current_matches (demo_session []) ++ added
       /\ (length added
           <= length [Some "cat"; Some "dog"; Some "cat"; None; Some "act"])%nat
       /\ forall x, In x added ->
            In x [Some "cat"; Some "dog"; Some "cat"; None; Some "act"]
            /\ ~ In x (current_matches (demo_session []))
            /\ exists letters,
                 jumble (demo_session []) = Some letters
                 /\ spec_contains letters x = inr true
                 /\ has (WORDS demo_globals) x = inr true.
Proof.
  apply (play_grows_matches spec_contains demo_globals
           [Some "cat"; Some "dog"; Some "cat"; None; Some "act"]
           (demo_session []) 2).
  reflexivity.
Defined.

(** X5.  On a session that has a target, a list of matches without
    repetition stays without repetition under every sequence of
    requests to /_check/word. *)
Theorem play_keeps_matches_distinct contains G
    (attempts : list (option string)) (s : Session) (target : Z) :
  target_count s = Some target ->
  NoDup (current_matches s) ->
  NoDup (current_matches (play_words contains G attempts s)).
Proof. intros _. apply play_nodup. Qed.

Lemma play_keeps_matches_distinct_witness :
  NoDup (current_matches
           (play_words spec_contains demo_globals
              [Some "cat"; Some "cat"; Some "dog"; Some "act"]
              (demo_session []))).
Proof.
  apply (play_keeps_matches_distinct spec_contains demo_globals
           [Some "cat"; Some "cat"; Some "dog"; Some "act"]
           (demo_session []) 2).
  - reflexivity.
  - simpl. constructor.
Defined.

(** X6.  Once the matches have reached the target they stay there under
    every further sequence of requests to /_check/word, and every
    [check_word] that then returns carries the redirect to the success
    page, whatever was posted. *)
Theorem complete_stays_complete contains G
    (attempts : list (option string)) (s : Session) (target : Z) :
  target_count s = Some target ->
  target <= len (current_matches s) ->
  target <= len (current_matches (play_words contains G attempts s))
  /\ forall attempt response found',
       snd (check_word contains G attempt
              (play_words contains G attempts s))
         = inr (response, found') ->
       redirect_url response = Some url_success.
Proof.
  intros Ht Hdone.
  destruct (play_extends contains G attempts s)
    as [_ [Ht' [added [Hm _]]]].
  assert (Hlen : target
                 <= len (current_matches (play_words contains G attempts s))).
  { rewrite Hm. unfold len in *. rewrite length_app. lia. }
  split; [exact Hlen|].
  intros attempt response found' Hret.
  destruct (check_word_returns contains G attempt _ response found' Hret)
    as [w [letters [target' [in_jumble [matched
         [_ [_ [Ht'' [_ [_ [Hf [_ ->]]]]]]]]]]]].
  rewrite Ht', Ht in Ht''. injection Ht'' as <-.
  simpl.
  assert (Hge : len found' >= target).
  { rewrite Hf. unfold found_after.
    destruct (matched && in_jumble && negb _);
      [rewrite len_app_one|]; lia. }
  apply geb_ge in Hge. now rewrite Hge.
Qed.

Lemma complete_stays_complete_witness :
  2 <= len (current_matches
              (play_words spec_contains demo_globals
                 [Some "dog"; Some "act"]
                 (demo_session [Some "cat"; Some "act"]))).
Proof.
  apply (complete_stays_complete spec_contains demo_globals
           [Some "dog"; Some "act"]
           (demo_session [Some "cat"; Some "act"]) 2).
  - reflexivity.
  - vm_compute. discriminate.
Defined.

(** X7.  Submitting a word again through [check_word] changes nothing:
    when a first call returned with the word valid, a second call with
    the same word on the session the first one left returns with the
    same list, reports the word as valid and as already found, and
    leaves that session as it is. *)
Theorem check_word_resubmission contains G (w : string) (s : Session)
    (response : WordResponse) (found' : list candidate) :
  snd (check_word contains G (Some w) s) = inr (response, found') ->
  valid_word response = true ->
  exists response2,
    check_word contains G (Some w) (fst (check_word contains G (Some w) s))
    = (fst (check_word contains G (Some w) s), inr (response2, found'))
    /\ valid_word response2 = true
    /\ already_found response2 = true.
Proof.
  intros Hret Hvalid.
  destruct (check_word_returns contains G (Some w) s response found' Hret)
    as [w' [letters [target [in_jumble [matched
         [Hw [Hj [Ht [Hc [Hh [Hf [Hs ->]]]]]]]]]]]].
  injection Hw as <-. simpl in Hvalid.
  apply andb_prop in Hvalid as [-> ->].
  set (s1 := fst (check_word contains G (Some w) s)) in *.
  assert (Hj1 : jumble s1 = Some letters).
  { rewrite <- Hj. apply (keeps_check_word contains G (Some w) s). }
  assert (Ht1 : target_count s1 = Some target).
  { rewrite <- Ht. apply (keeps_check_word contains G (Some w) s). }
  assert (Hm1 : matches s1 = Some found' /\ py_in (Some w) found' = true).
  { unfold found_after in Hf. simpl in Hf, Hs.
    destruct (py_in (Some w) (current_matches s)) eqn:Hin; simpl in Hf, Hs.
    - subst found'. split; [|exact Hin].
      rewrite Hs. unfold current_matches in *.
      destruct (matches s); [reflexivity|simpl in Hin; discriminate].
    - subst found'. rewrite Hs. split; [reflexivity|].
      apply py_in_In, in_or_app. right. now left. }
  destruct Hm1 as [Hm1 Hin1].
  rewrite (check_word_run contains G (Some w) s1 letters found' target
             true true Hj1 Hm1 Ht1 Hc Hh w eq_refl).
  unfold found_after. rewrite Hin1. simpl.
  rewrite (set_matches_same _ _ Hm1).
  eexists. repeat split; reflexivity.
Qed.

Lemma check_word_resubmission_witness :
  exists response2,
    check_word spec_contains demo_globals (Some "cat")
      (fst (check_word spec_contains demo_globals (Some "cat")
              (demo_session [])))
    = (fst (check_word spec_contains demo_globals (Some "cat")
              (demo_session [])),
       inr (response2, [Some "cat"]))
    /\ valid_word response2 = true
    /\ already_found response2 = true.
Proof.
  apply (check_word_resubmission spec_contains demo_globals "cat"
           (demo_session []) (mkWordResponse true false None));
    reflexivity.
Defined.

(** ** Session starts *)

Lemma index_target_positive G :
  0 < index_target G <->
  as_list (WORDS G) <> [] /\ 0 < SUCCESS_AT_COUNT (CONFIG G).
Proof.
  unfold index_target, len.
  destruct (as_list (WORDS G)) as [|x l]; simpl length.
  - split; [lia|]. intros [H _]. now contradiction H.
  - split.
    + intros H. split; [discriminate|lia].
    + intros [_ H]. lia.
Qed.

(** X8.  [index] renders the game page exactly when the generator
    returns a jumble, the vocabulary is not empty and the configured
    threshold is positive; in every other case the request ends in an
    exception. *)
Theorem index_renders_iff
    (jumbled : list string -> Z -> option Z -> Z -> throws string) G
    (entropy : Z) (s : Session) (page : Page) :
  snd (index jumbled G entropy s) = inr page <->
  page = Template "vocab.html"
  /\ (exists letters,
        jumbled (as_list (WORDS G)) (index_target G) (seed_arg (SEED G))
          entropy = inr letters)
  /\ as_list (WORDS G) <> []
  /\ 0 < SUCCESS_AT_COUNT (CONFIG G).
Proof.
  destruct (jumbled (as_list (WORDS G)) (index_target G)
              (seed_arg (SEED G)) entropy) as [e|letters] eqn:Hgen.
  - rewrite (index_raises jumbled G entropy s e Hgen). simpl.
    split; [discriminate|]. intros [_ [[letters H] _]]. discriminate.
  - rewrite (index_run jumbled G entropy s letters Hgen). simpl.
    destruct (0 <? index_target G) eqn:Hpos.
    + apply Z.ltb_lt, index_target_positive in Hpos.
      split.
      * intros H. injection H as <-.
        split; [reflexivity|]. split; [now exists letters|exact Hpos].
      * intros [-> _]. reflexivity.
    + apply Z.ltb_ge in Hpos. split; [discriminate|].
      intros [_ [_ H]]. apply index_target_positive in H. lia.
Qed.

(** X9.  A restart whose generator raises leaves the earlier game in
    the session: [index] has by then overwritten [target_count] only,
    so the previous jumble and matches remain under the new target,
    and the generator's exception leaves the handler. *)
Theorem index_failed_restart
    (jumbled : list string -> Z -> option Z -> Z -> throws string) G
    (entropy : Z) (s : Session) (e : exn) :
  jumbled (as_list (WORDS G)) (index_target G) (seed_arg (SEED G)) entropy
    = inl e ->
  snd (index jumbled G entropy s) = inl e
  /\ jumble (fst (index jumbled G entropy s)) = jumble s
  /\ matches (fst (index jumbled G entropy s)) = matches s
  /\ target_count (fst (index jumbled G entropy s))
     = Some (Z.min (len (as_list (WORDS G))) (SUCCESS_AT_COUNT (CONFIG G))).
Proof.
  intros Hgen. rewrite (index_raises jumbled G entropy s e Hgen).
  repeat split.
Qed.

Lemma index_failed_restart_witness :
  snd (index spec_jumbled empty_globals 7 (demo_session [Some "cat"]))
    = inl (Exn "ConfigurationError" "the vocabulary is empty")
  /\ jumble (fst (index spec_jumbled empty_globals 7
                    (demo_session [Some "cat"]))) = Some "tac"
  /\ matches (fst (index spec_jumbled empty_globals 7
                     (demo_session [Some "cat"]))) = Some [Some "cat"]
  /\ target_count (fst (index spec_jumbled empty_globals 7
                          (demo_session [Some "cat"]))) = Some 0.
Proof.
  apply (index_failed_restart spec_jumbled empty_globals 7
           (demo_session [Some "cat"])).
  reflexivity.
Defined.

(** X10.  With a configured threshold that is not positive, a session
    start whose generator returns fails on its assertion after the
    session has been written, and on the session it leaves every
    [check_word] that returns already redirects to the success page. *)
Theorem index_nonpositive_threshold
    (jumbled : list string -> Z -> option Z -> Z -> throws string) G
    (entropy : Z) (s : Session) (letters : string) :
  SUCCESS_AT_COUNT (CONFIG G) <= 0 ->
  jumbled (as_list (WORDS G)) (index_target G) (seed_arg (SEED G)) entropy
    = inr letters ->
  index jumbled G entropy s
  = (mkSession (Some letters) (Some (index_target G)) (Some []),
     inl AssertionError)
  /\ forall contains attempt response found',
       snd (check_word contains G attempt
              (fst (index jumbled G entropy s)))
         = inr (response, found') ->
       redirect_url response = Some url_success.
Proof.
  intros Hth Hgen.
  assert (Hle : index_target G <= 0) by (unfold index_target; lia).
  rewrite (index_run jumbled G entropy s letters Hgen).
  assert (Hltb : (0 <? index_target G) = false) by (apply Z.ltb_ge, Hle).
  rewrite Hltb. split; [reflexivity|].
  intros contains attempt response found' Hret. simpl in Hret.
  destruct (check_word_returns contains G attempt _ response found' Hret)
    as [w [l [target [in_jumble [matched
         [_ [_ [Ht [_ [_ [Hf [_ ->]]]]]]]]]]]].
  simpl in Ht. injection Ht as <-. simpl.
  assert (Hge : len found' >= index_target G).
  { unfold len. lia. }
  apply geb_ge in Hge. now rewrite Hge.
Qed.

Lemma index_nonpositive_threshold_witness :
  index spec_jumbled
    (mkGlobals (mkConfig "secret" 0 5000 true)
       (spec_vocab ["cat"; "car"; "cart"]) (Some 1))
    7 empty_session
  = (mkSession (Some "") (Some 0) (Some []), inl AssertionError).
Proof.
  apply (index_nonpositive_threshold spec_jumbled
           (mkGlobals (mkConfig "secret" 0 5000 true)
              (spec_vocab ["cat"; "car"; "cart"]) (Some 1))
           7 empty_session "").
  - vm_compute. discriminate.
  - reflexivity.
Defined.

Lemma seed_arg_nonpositive (z : Z) : z <= 0 -> seed_arg (Some z) = None.
Proof.
  intros Hz. apply seed_arg_none. right. exists z. now split.
Qed.

(** X11.  Loading the module.  An exception of [Vocab] aborts the load
    whatever the seed is, and so does any exception of [int] other than
    a [ValueError].  When [int] raises [ValueError] the module loads
    with the given configuration and vocabulary, and every session
    start then behaves as under a configured seed of zero or below: the
    generator is called unseeded. *)
Theorem module_init_seed
    (jumbled : list string -> Z -> option Z -> Z -> throws string)
    (cfg : Config) (words : Vocab) :
  (forall e int_SEED, module_init cfg (inl e) int_SEED = inl e)
  /\ (forall e, exn_class e <> "ValueError" ->
        module_init cfg (inr words) (inl e) = inl e)
  /\ (forall e, exn_class e = "ValueError" ->
        exists G,
          module_init cfg (inr words) (inl e) = inr G
          /\ CONFIG G = cfg /\ WORDS G = words
          /\ forall z entropy s, z <= 0 ->
               index jumbled G entropy s
               = index jumbled (mkGlobals cfg words (Some z)) entropy s).
Proof.
  split; [reflexivity|]. split.
  - intros e Hcls. unfold module_init.
    apply String.eqb_neq in Hcls. now rewrite Hcls.
  - intros e Hcls. exists (mkGlobals cfg words None).
    unfold module_init. rewrite Hcls. simpl.
    repeat split.
    intros z entropy s Hz. unfold index, index_target. simpl SEED.
    now rewrite (seed_arg_nonpositive z Hz).
Qed.

(** ** A session without the [matches] key *)

(** X12.  On a session that has a jumble and a target but no [matches]
    key, a word that passes is reported by [check] in a list of its
    own, which is not stored: the session is left without the key.
    [check_word] stores that list. *)
Theorem check_without_matches_key contains G (w : string) (s : Session)
    (letters : string) (target : Z) :
  jumble s = Some letters ->
  matches s = None ->
  target_count s = Some target ->
  contains letters (Some w) = inr true ->
  has (WORDS G) (Some w) = inr true ->
  check contains G (Some w) s
  = (s, JsonResult (choose_page [Some w] target
                      (with_matches [Some w] empty_result)))
  /\ fst (check_word contains G (Some w) s) = set_matches [Some w] s.
Proof.
  intros Hj Hm Ht Hc Hh. split.
  - rewrite (surjective_pairing (check contains G (Some w) s)).
    rewrite (check_reply_any contains G (Some w) s letters target
               true true Hj Ht Hc Hh).
    unfold current_matches. rewrite Hm. simpl. f_equal.
    destruct (check_step contains G (Some w) s)
      as [Hsame|[l [found [_ [Hsome _]]]]]; [exact Hsame|congruence].
  - run_all. rewrite Hj, Hc, Hh. simpl. rewrite Hm. simpl.
    rewrite Hm. simpl. rewrite Ht. reflexivity.
Qed.

Lemma check_without_matches_key_witness :
  check spec_contains demo_globals (Some "cat")
    (mkSession (Some "tac") (Some 2) None)
  = (mkSession (Some "tac") (Some 2) None,
     JsonResult (choose_page [Some "cat"] 2
                   (with_matches [Some "cat"] empty_result)))
  /\ fst (check_word spec_contains demo_globals (Some "cat")
            (mkSession (Some "tac") (Some 2) None))
     = set_matches [Some "cat"] (mkSession (Some "tac") (Some 2) None).
Proof.
  apply (check_without_matches_key spec_contains demo_globals "cat"
           (mkSession (Some "tac") (Some 2) None) "tac" 2);
    reflexivity.
Defined.

(** ** A whole game *)

(** X13.  After a session start that rendered the page, and whatever
    requests to /_check/word follow on that session, the session holds
    the jumble of that start and its positive target; its matches are
    distinct, no more numerous than the requests made, and each of them
    was posted by one of the requests and answered true by both
    collaborators for that jumble. *)
Theorem game_invariant
    (jumbled : list string -> Z -> option Z -> Z -> throws string)
    contains G (entropy : Z) (s0 : Session) (page : Page)
    (attempts : list (option string)) :
  snd (index jumbled G entropy s0) = inr page ->
  exists letters found,
    jumbled (as_list (WORDS G)) (index_target G) (seed_arg (SEED G)) entropy
      = inr letters
    /\ play_words contains G attempts (fst (index jumbled G entropy s0))
       = mkSession (Some letters) (Some (index_target G)) (Some found)
    /\ 0 < index_target G
    /\ NoDup found
    /\ (length found <= length attempts)%nat
    /\ forall x, In x found ->
         In x attempts
         /\ contains letters x = inr true
         /\ has (WORDS G) x = inr true.
Proof.
  intros Hpage.
  destruct (jumbled (as_list (WORDS G)) (index_target G)
              (seed_arg (SEED G)) entropy) as [e|letters] eqn:Hgen.
  - rewrite (index_raises jumbled G entropy s0 e Hgen) in Hpage.
    discriminate.
  - rewrite (index_run jumbled G entropy s0 letters Hgen) in *.
    simpl in Hpage. simpl fst.
    destruct (0 <? index_target G) eqn:Hpos; [|discriminate].
    apply Z.ltb_lt in Hpos.
    set (s := mkSession (Some letters) (Some (index_target G)) (Some [])).
    destruct (play_extends contains G attempts s)
      as [Hj [Ht [added [Hm [Hlen Hin]]]]].
    pose proof (play_nodup contains G attempts s (NoDup_nil _)) as Hnd.
    assert (Hkey : matches (play_words contains G attempts s)
                   = Some (current_matches
                             (play_words contains G attempts s)))
      by (apply play_keeps_key; discriminate).
    simpl in Hm. rewrite Hm in Hkey, Hnd.
    exists letters, added.
    split; [reflexivity|]. split; [|split; [exact Hpos|]].
    + destruct (play_words contains G attempts s) as [j t m]. simpl in *.
      now rewrite Hj, Ht, Hkey.
    + split; [exact Hnd|]. split; [exact Hlen|].
      intros x Hx. destruct (Hin x Hx) as [H1 [_ [l [Hl [H2 H3]]]]].
      simpl in Hl. injection Hl as <-. repeat split; assumption.
Qed.

Lemma game_invariant_witness :
  exists letters found,
    spec_jumbled (as_list (WORDS demo_globals)) (index_target demo_globals)
      (seed_arg (SEED demo_globals)) 7 = inr letters
    /\ play_words spec_contains demo_globals
         [Some "cat"; Some "dog"; Some "cat"; Some "cart"]
         (fst (index spec_jumbled demo_globals 7 empty_session))
       = mkSession (Some letters) (Some (index_target demo_globals))
           (Some found)
    /\ 0 < index_target demo_globals
    /\ NoDup found
    /\ (length found
        <= length [Some "cat"; Some "dog"; Some "cat"; Some "cart"])%nat
    /\ forall x, In x found ->
         In x [Some "cat"; Some "dog"; Some "cat"; Some "cart"]
         /\ spec_contains letters x = inr true
         /\ has (WORDS demo_globals) x = inr true.
Proof.
  apply (game_invariant spec_jumbled spec_contains demo_globals 7
           empty_session (Template "vocab.html")).
  reflexivity.
Defined.
